(** * deltachat-rpc-client: the [Chat] handle and the RPC contract it calls

    The development embeds [deltachat_rpc_client/chat.py] as state-passing
    coroutine bodies over an abstract [Rpc] object, and states the
    properties of the handle against that embedding.  The transport core
    ([rpc.py]: Correlator, CallProxy) is not part of the sources at hand;
    it is modelled from the design document in module [rpc]. *)

From Stdlib Require Import ZArith.
From stdpp Require Import base tactics option list gmap sets strings.

Local Open Scope string_scope.
Local Open Scope list_scope.
Local Open Scope Z_scope.

(** ** Values *)

(** What crosses the RPC boundary: JSON-serialisable Python values.
    Python integers are unbounded, hence [Z]; the annotations [int] and
    [str] of the source are not enforced at run time, so every argument
    and every attribute ranges over all of [value]. *)
#[warnings="-register-all"]
Inductive value : Type :=
  | VNone
  | VBool (b : bool)
  | VInt (z : Z)
  | VStr (s : string)
  | VList (l : list value).

(** How a call ends: it returns, or an exception leaves it. *)
Inductive outcome (E A : Type) : Type :=
  | Returned (a : A)
  | Raised (e : E).
Arguments Returned {E A} a.
Arguments Raised {E A} e.

(** ** The interface of [Rpc] that [chat.py] relies on

    [await self.rpc.NAME(args...)]: the attribute [NAME] is
    resolved dynamically on the rpc object, the resulting coroutine is
    awaited to completion.  [R] are references to rpc objects, [W] is
    everything the awaited call may change, [E] the exceptions it may
    raise. *)
Class RpcLayer (R W E : Type) : Type :=
  rpc_call : R → string → list value → W → outcome E value * W.

Module chat.

(** Modelled from the spec: [message.py] (class [Message]) is missing;
    a handle is "a lightweight domain object (chat/message/account)
    carrying only identifying integers plus a reference to the
    Connection", built from the three constructor arguments. *)
Record Message (R : Type) : Type := mkMessage {
  msg_rpc : R;
  msg_account_id : value;
  msg_id : value;
}.
Arguments mkMessage {R} _ _ _.
Arguments msg_rpc {R} _.
Arguments msg_account_id {R} _.
Arguments msg_id {R} _.

(** The attributes of a [Chat] instance. *)
Record Chat (R : Type) : Type := mkChat {
  rpc : R;
  account_id : value;
  chat_id : value;
}.
Arguments mkChat {R} _ _ _.
Arguments rpc {R} _.
Arguments account_id {R} _.
Arguments chat_id {R} _.

(** One remote invocation, as observed at the rpc object. *)
Record invocation (R : Type) : Type := mkInvocation {
  inv_target : R;
  inv_method : string;
  inv_args : list value;
}.
Arguments mkInvocation {R} _ _ _.
Arguments inv_target {R} _.
Arguments inv_method {R} _.
Arguments inv_args {R} _.

Section methods.
Context {R W E : Type} `{!RpcLayer R W E}.

(** What a method body runs against: the instance [self] (mutable, as
    every Python object), the world behind the rpc object, and the
    list of remote invocations started so far (ghost, append-only). *)
Record frame : Type := mkFrame {
  self : Chat R;
  world : W;
  trace : list (invocation R);
}.

(** A coroutine body run to completion. *)
Definition coro (A : Type) : Type := frame → outcome E A * frame.

#[local] Instance coro_ret : MRet coro := λ A a fr, (Returned a, fr).

(** Sequencing; there is no [try] in the source, so an exception
    skips the rest of the body. *)
#[local] Instance coro_bind : MBind coro := λ A B k m fr,
  match m fr with
  | (Returned a, fr') => k a fr'
  | (Raised e, fr') => (Raised e, fr')
  end.

(** [self.NAME] *)
Definition getattr {A} (field : Chat R → A) : coro A :=
  λ fr, (Returned (field (self fr)), fr).

(** [self.NAME = v] *)
Definition setattr (upd : Chat R → Chat R) : coro unit :=
  λ fr, (Returned (), mkFrame (upd (self fr)) (world fr) (trace fr)).

(** [await r.NAME(args...)]: the arguments are evaluated first, the
    call is recorded, and the body resumes with what the call leaves.
    The handle is never passed to the rpc object, so the call has no
    way to reach [self]. *)
Definition await_rpc (r : R) (name : string) (args : list value) : coro value :=
  λ fr, let '(o, w') := rpc_call r name args (world fr) in
        (o, mkFrame (self fr) w' (trace fr ++ [mkInvocation r name args])).

(** Three attribute stores on the instance being built; like every
    [__init__], it returns None. *)
Definition __init__ (rpc0 : R) (account_id0 chat_id0 : value) : coro value :=
  setattr (λ s, mkChat rpc0 (account_id s) (chat_id s));;
  setattr (λ s, mkChat (rpc s) account_id0 (chat_id s));;
  setattr (λ s, mkChat (rpc s) (account_id s) chat_id0);;
  mret VNone.

Definition block : coro value :=
  r ← getattr rpc; a ← getattr account_id; c ← getattr chat_id;
  await_rpc r "block_chat" [a; c];;
  mret VNone.

Definition accept : coro value :=
  r ← getattr rpc; a ← getattr account_id; c ← getattr chat_id;
  await_rpc r "accept_chat" [a; c];;
  mret VNone.

Definition delete : coro value :=
  r ← getattr rpc; a ← getattr account_id; c ← getattr chat_id;
  await_rpc r "delete_chat" [a; c];;
  mret VNone.

Definition get_encryption_info : coro value :=
  r ← getattr rpc; a ← getattr account_id; c ← getattr chat_id;
  await_rpc r "get_chat_encryption_info" [a; c].

(** The import of [Message] at the top of the body binds a class of the
    same package; [self.rpc] and [self.account_id] are read again after
    the [await]. *)
Definition send_text (text : value) : coro (Message R) :=
  r ← getattr rpc; a ← getattr account_id; c ← getattr chat_id;
  msg_id0 ← await_rpc r "misc_send_text_message" [a; c; text];
  r' ← getattr rpc; a' ← getattr account_id;
  mret (mkMessage r' a' msg_id0).

Definition leave : coro value :=
  r ← getattr rpc; a ← getattr account_id; c ← getattr chat_id;
  await_rpc r "leave_group" [a; c];;
  mret VNone.

Definition get_fresh_message_count : coro value :=
  r ← getattr rpc; a ← getattr account_id; c ← getattr chat_id;
  await_rpc r "get_fresh_msg_cnt" [a; c].

(** *** The public operations, as one family *)

Inductive operation : Type :=
  | Block
  | Accept
  | Delete
  | Get_encryption_info
  | Send_text (text : value)
  | Leave
  | Get_fresh_message_count.

(** What an operation hands back: a plain value or a [Message]. *)
Inductive handed_back : Type :=
  | Plain (v : value)
  | Handle (m : Message R).

Definition coro_map {A B} (f : A → B) (m : coro A) : coro B :=
  x ← m; mret (f x).

Definition perform (op : operation) : coro handed_back :=
  match op with
  | Block => coro_map Plain block
  | Accept => coro_map Plain accept
  | Delete => coro_map Plain delete
  | Get_encryption_info => coro_map Plain get_encryption_info
  | Send_text text => coro_map Handle (send_text text)
  | Leave => coro_map Plain leave
  | Get_fresh_message_count => coro_map Plain get_fresh_message_count
  end.

(** The forwarding table as the design document words it: one remote
    method name per operation, and the operation's own arguments that
    follow [account_id] and [chat_id]. *)
Definition remote_name (op : operation) : string :=
  match op with
  | Block => "block_chat"
  | Accept => "accept_chat"
  | Delete => "delete_chat"
  | Get_encryption_info => "get_chat_encryption_info"
  | Send_text _ => "misc_send_text_message"
  | Leave => "leave_group"
  | Get_fresh_message_count => "get_fresh_msg_cnt"
  end.

Definition own_args (op : operation) : list value :=
  match op with
  | Send_text text => [text]
  | _ => []
  end.

(** The single forward an operation is expected to make from [fr]. *)
Definition forward_of (op : operation) (fr : frame) : invocation R :=
  mkInvocation (rpc (self fr)) (remote_name op)
               (account_id (self fr) :: chat_id (self fr) :: own_args op).

(** What each operation hands back once the remote call has returned
    [v], read off the [return] statements of the source. *)
Definition answer (op : operation) (s : Chat R) (v : value) : handed_back :=
  match op with
  | Block | Accept | Delete | Leave => Plain VNone
  | Get_encryption_info | Get_fresh_message_count => Plain v
  | Send_text _ => Handle (mkMessage (rpc s) (account_id s) v)
  end.

(** A caller that runs operations one after the other on the same
    handle, whether the previous one returned or raised. *)
Definition perform_all (ops : list operation) (fr : frame) : frame :=
  foldl (λ fr op, (perform op fr).2) fr ops.

(** The four operations annotated [-> None], with the remote method
    each one forwards to. *)
Definition void_operations : list (coro value * string) :=
  [(block, "block_chat"); (accept, "accept_chat");
   (delete, "delete_chat"); (leave, "leave_group")].

End methods.

Arguments frame : clear implicits.
Arguments coro : clear implicits.
Arguments handed_back : clear implicits.

End chat.

(** ** The transport core ([rpc.py]), from the design document *)

Module rpc.

(** Modelled from the spec: [rpc.py] is missing; ConnectionState has the
    lifecycle "Starting → Ready → Degraded(reason) → Closed". *)
Inductive ConnectionState : Type :=
  | Starting
  | Ready
  | Degraded (reason : string)
  | Closed.

(** Modelled from the spec: [rpc.py] is missing; "Request: {id: unique
    integer, method: string, params: ordered sequence of
    JSON-serializable values}". *)
Record Request : Type := mkRequest {
  req_id : Z;
  req_method : string;
  req_params : list value;
}.

(** Modelled from the spec: [rpc.py] is missing; a Response carries
    "result: JSON value" XOR "error: {code, message, optional data}". *)
Inductive payload : Type :=
  | Result (v : value)
  | Error (code : Z) (message : string) (data : option value).

(** Modelled from the spec: [rpc.py] is missing; an incoming frame is a
    Response "{id, result} XOR {id, error}" or a Notification
    "{method, params}" with no id. *)
Inductive message : Type :=
  | Response (id : Z) (p : payload)
  | Notification (method : string) (params : list value).

(** Modelled from the spec: [rpc.py] is missing; the error taxonomy of
    section 7. *)
Inductive failure : Type :=
  | MalformedFrame
  | NotReady
  | RemoteError (code : Z) (message : string) (data : option value)
  | TransportLost
  | StartupTimeout
  | ProcessExited (code : Z).

(** What a PendingCall resolves to: "returns the result value or raises
    a typed failure constructed from the error payload". *)
Abbreviation resolution := (outcome failure value).

(** Modelled from the spec: [rpc.py] is missing; "mapping the remote
    error code/message into a local error kind". *)
Definition resolution_of (p : payload) : resolution :=
  match p with
  | Result v => Returned v
  | Error code msg data => Raised (RemoteError code msg data)
  end.

(** Modelled from the spec: [rpc.py] is missing; the Correlator "assigns
    monotonically increasing request identifiers, tracks one
    pending-result slot per in-flight identifier, and routes each
    incoming message to either a pending slot (response) or the
    EventDispatcher (notification)".  [written] is what was handed to
    the Framer, [resolved] lists every resolution handed to a caller, in
    order, [dispatched] what went to the EventDispatcher and [dropped]
    the responses with an unknown id. *)
Record Correlator : Type := mkCorrelator {
  state : ConnectionState;
  last_id : Z;
  pending : gset Z;
  written : list Request;
  resolved : list (Z * resolution);
  dispatched : list message;
  dropped : list message;
}.

(** Modelled from the spec: [rpc.py] is missing; a connection that has
    been launched and not yet reported itself initialized.  The first
    identifier handed out is 1, as in the scenarios of section 8. *)
Definition launched : Correlator :=
  mkCorrelator Starting 0 ∅ [] [] [] [].

(** Modelled from the spec: [rpc.py] is missing; "submit(method, params)
    -> PendingCall — allocates the next identifier, constructs and
    registers a PendingCall, hands the serialized Request to the Framer
    for writing, and returns a handle the caller suspends on.  submit
    fails immediately with NotReady if ConnectionState is not Ready."
    The handle is the identifier. *)
Definition submit (method : string) (params : list value) (c : Correlator)
    : outcome failure Z * Correlator :=
  match state c with
  | Ready =>
      let id := last_id c + 1 in
      (Returned id,
       mkCorrelator (state c) id ({[id]} ∪ pending c)
                    (written c ++ [mkRequest id method params])
                    (resolved c) (dispatched c) (dropped c))
  | _ => (Raised NotReady, c)
  end.

(** Modelled from the spec: [rpc.py] is missing; "onIncoming(message) —
    if it carries a known pending id, resolves that PendingCall with its
    result/error and removes it from the pending set; if it carries an
    unknown id, the message is dropped with a diagnostic; if it carries
    no id, it is forwarded verbatim to the EventDispatcher." *)
Definition onIncoming (m : message) (c : Correlator) : Correlator :=
  match m with
  | Response id p =>
      if decide (id ∈ pending c)
      then mkCorrelator (state c) (last_id c) (pending c ∖ {[id]}) (written c)
                        (resolved c ++ [(id, resolution_of p)])
                        (dispatched c) (dropped c)
      else mkCorrelator (state c) (last_id c) (pending c) (written c)
                        (resolved c) (dispatched c) (dropped c ++ [m])
  | Notification _ _ =>
      mkCorrelator (state c) (last_id c) (pending c) (written c)
                   (resolved c) (dispatched c ++ [m]) (dropped c)
  end.

(** Modelled from the spec: [rpc.py] is missing; "drainOnClose() —
    force-resolves every remaining PendingCall with a TransportLost
    failure, then clears the pending set". *)
Definition drainOnClose (c : Correlator) : Correlator :=
  mkCorrelator (state c) (last_id c) ∅ (written c)
               (resolved c ++ ((λ id, (id, Raised TransportLost)) <$> elements (pending c)))
               (dispatched c) (dropped c).

(** Modelled from the spec: [rpc.py] is missing; Starting → Ready, once
    "the process reports itself initialized". *)
Definition initialized (c : Correlator) : Correlator :=
  match state c with
  | Starting => mkCorrelator Ready (last_id c) (pending c) (written c)
                             (resolved c) (dispatched c) (dropped c)
  | _ => c
  end.

(** Modelled from the spec: [rpc.py] is missing; Ready → Degraded(reason);
    "Degraded rejects new calls immediately but lets already-in-flight
    calls fail out". *)
Definition degrade (reason : string) (c : Correlator) : Correlator :=
  match state c with
  | Ready => mkCorrelator (Degraded reason) (last_id c) (pending c) (written c)
                          (resolved c) (dispatched c) (dropped c)
  | _ => c
  end.

(** Modelled from the spec: [rpc.py] is missing; "Closed is terminal —
    all pending calls are force-resolved with a transport-lost failure". *)
Definition close (c : Correlator) : Correlator :=
  match state c with
  | Closed => c
  | _ => drainOnClose (mkCorrelator Closed (last_id c) (pending c) (written c)
                                    (resolved c) (dispatched c) (dropped c))
  end.

(** Everything that can happen to one connection, in the order the
    single synchronization point sees it: a caller enters [call], the
    reader task feeds a frame, or the lifecycle moves. *)
Inductive event : Type :=
  | Submits (method : string) (params : list value)
  | Incoming (m : message)
  | Initialized
  | Degrades (reason : string)
  | Closes.

Definition step (c : Correlator) (e : event) : Correlator :=
  match e with
  | Submits method params => (submit method params c).2
  | Incoming m => onIncoming m c
  | Initialized => initialized c
  | Degrades reason => degrade reason c
  | Closes => close c
  end.

Definition run (evs : list event) (c : Correlator) : Correlator :=
  foldl step c evs.

(** The resolutions handed to the caller of [id], in order. *)
Definition delivered (c : Correlator) (id : Z) : list resolution :=
  (filter (λ r, r.1 = id) (resolved c)).*2.

(** The identifiers assigned so far, in order of assignment. *)
Definition assigned (c : Correlator) : list Z := req_id <$> written c.

(** Whether [e] can end the wait of the caller of [id]: a Response that
    carries [id], or the connection closing. *)
Definition touches (id : Z) (e : event) : bool :=
  match e with
  | Incoming (Response id' _) => bool_decide (id' = id)
  | Closes => true
  | _ => false
  end.

Definition undisturbed (id : Z) (evs : list event) : bool :=
  forallb (λ e, negb (touches id e)) evs.

(** What holds of the Correlator at every moment of a connection's
    lifetime. *)
Record consistent (c : Correlator) : Prop := mkConsistent {
  pending_bounded : ∀ i, i ∈ pending c → i ≤ last_id c;
  resolved_bounded : ∀ i, i ∈ (resolved c).*1 → i ≤ last_id c;
  pending_unresolved : ∀ i, i ∈ pending c → i ∉ (resolved c).*1;
  closed_drained : state c = Closed → pending c = ∅;
}.

(** Modelled from the spec: [rpc.py] is missing; a Connection is the
    Correlator together with the frames the engine has emitted and the
    reader task has not pulled yet. *)
Record Connection : Type := mkConnection {
  correlator : Correlator;
  unread : list message;
}.

(** Modelled from the spec: [rpc.py] is missing; "suspends the calling
    execution until the PendingCall resolves".  The reader task runs
    while the caller of [id] is suspended: frames
    are fed to [onIncoming] until the PendingCall has resolved; at
    end-of-input the connection closes. *)
Fixpoint suspend (id : Z) (frames : list message) (c : Correlator)
    : resolution * Connection :=
  match delivered c id with
  | o :: _ => (o, mkConnection c frames)
  | [] =>
      match frames with
      | m :: rest => suspend id rest (onIncoming m c)
      | [] => let c' := close c in
              (default (Raised TransportLost) (head (delivered c' id)),
               mkConnection c' [])
      end
  end.

(** Modelled from the spec: [rpc.py] is missing; "call(method, *params)
    -> result — submits, suspends the calling execution until the
    PendingCall resolves, then either returns the result value or raises
    a typed failure". *)
Definition call (method : string) (params : list value) (k : Connection)
    : resolution * Connection :=
  match submit method params (correlator k) with
  | (Returned id, c) => suspend id (unread k) c
  | (Raised e, c) => (Raised e, mkConnection c (unread k))
  end.

(** A world with one rpc object, the connection itself. *)
#[global] Instance connection_layer : RpcLayer () Connection failure :=
  λ _ method params k, call method params k.

(** A world with two rpc objects, referred to as [true] and [false]. *)
#[global] Instance two_connections : RpcLayer bool (Connection * Connection) failure :=
  λ r method params w,
    if r then let '(o, k) := call method params w.1 in (o, (k, w.2))
    else let '(o, k) := call method params w.2 in (o, (w.1, k)).

End rpc.

(** ** Concrete runs used to exercise the statements *)

Module scenario.
Import rpc.

(** Chat 42 of account 7, on a connection that is Ready and on which the
    engine's reply [{"id":1,"result":3}] is about to be read. *)
Definition fresh_count_frame : chat.frame () Connection :=
  chat.mkFrame (chat.mkChat () (VInt 7) (VInt 42))
               (mkConnection (initialized launched) [Response 1 (Result (VInt 3))])
               [].

(** The same chat after one completed call; the engine answers request
    2 with [{"id":2,"error":{"code":-1,"message":"chat not found"}}]. *)
Definition not_found_frame : chat.frame () Connection :=
  chat.mkFrame (chat.mkChat () (VInt 7) (VInt 42))
               (mkConnection
                  (run [Initialized; Submits "get_fresh_msg_cnt" [VInt 7; VInt 42];
                        Incoming (Response 1 (Result (VInt 3)))] launched)
                  [Response 2 (Error (-1) "chat not found" None)])
               [].

(** A blank instance, as [__init__] receives it. *)
Definition blank_frame : chat.frame () Connection :=
  chat.mkFrame (chat.mkChat () VNone VNone)
               (mkConnection (initialized launched) [])
               [].

(** Chat 42 of account 7 on the second of two connections; the first
    one has not finished starting. *)
Definition second_rpc_frame : chat.frame bool (Connection * Connection) :=
  chat.mkFrame (chat.mkChat false (VInt 7) (VInt 42))
               (mkConnection launched [],
                mkConnection (initialized launched) [Response 1 (Result (VInt 1001))])
               [].

(** Chat 42 of account 7 on the second of two connections, with the
    engine's replies to the next two requests about to be read. *)
Definition two_replies_frame : chat.frame bool (Connection * Connection) :=
  chat.mkFrame (chat.mkChat false (VInt 7) (VInt 42))
               (mkConnection launched [],
                mkConnection (initialized launched)
                             [Response 1 (Result (VStr "ignored"));
                              Response 2 (Result (VInt 1002))])
               [].

(** Two calls completed, identifiers 1 and 2 used up. *)
Definition two_done : list event :=
  [Initialized;
   Submits "get_fresh_msg_cnt" [VInt 7; VInt 42];
   Submits "block_chat" [VInt 7; VInt 42];
   Incoming (Response 2 (Result VNone));
   Incoming (Response 1 (Result (VInt 3)))].

(** Four calls completed, a fifth one outstanding. *)
Definition five_outstanding : list event :=
  two_done ++
  [Submits "accept_chat" [VInt 7; VInt 42];
   Submits "leave_group" [VInt 7; VInt 42];
   Incoming (Response 4 (Result VNone));
   Incoming (Response 3 (Result VNone));
   Submits "delete_chat" [VInt 7; VInt 42]].

End scenario.

(** ** Properties of the [Chat] handle *)

Module chat_facts.
Import chat.

Section facts.
Context {R W E : Type} `{!RpcLayer R W E}.
Implicit Types (fr : frame R W) (op : operation) (v : value) (e : E) (w : W).

Local Ltac run_body :=
  cbv beta iota zeta delta
      [perform coro_map block accept delete leave get_encryption_info
       get_fresh_message_count send_text __init__ await_rpc getattr setattr
       mbind mret coro_bind coro_ret].

(** Every operation is its forward, and nothing else. *)
Lemma perform_unfold op fr :
  perform op fr =
    let '(o, w') := rpc_call (rpc (self fr)) (remote_name op)
                             (inv_args (forward_of op fr)) (world fr) in
    (match o with
     | Returned v => Returned (answer op (self fr) v)
     | Raised e => Raised e
     end,
     mkFrame (self fr) w' (trace fr ++ [forward_of op fr])).
Proof.
  destruct op; run_body; simpl;
    destruct (rpc_call _ _ _ _) as [[v|e] w']; reflexivity.
Qed.

Lemma perform_all_snoc ops op fr :
  perform_all (ops ++ [op]) fr = (perform op (perform_all ops fr)).2.
Proof. unfold perform_all. by rewrite foldl_app. Qed.

Lemma perform_self op fr : self (perform op fr).2 = self fr.
Proof.
  rewrite perform_unfold.
  by destruct (rpc_call _ _ _ _) as [[v|e] w'].
Qed.

(** C2: every public operation of [Chat] forwards one remote method
    name once: the remote invocations it starts are exactly one, on
    the stored rpc object, with arguments [account_id], [chat_id] and
    then the operation's own; the world it leaves is the one that
    single invocation leaves. *)
Theorem operation_is_single_forward op fr :
  trace (perform op fr).2
    = trace fr ++ [mkInvocation (rpc (self fr)) (remote_name op)
                                (account_id (self fr) :: chat_id (self fr) :: own_args op)]
  ∧ world (perform op fr).2
    = (rpc_call (rpc (self fr)) (remote_name op)
                (account_id (self fr) :: chat_id (self fr) :: own_args op)
                (world fr)).2.
Proof.
  rewrite perform_unfold. unfold forward_of; simpl.
  by destruct (rpc_call _ _ _ _) as [[v|e] w'].
Qed.

(** C3: [get_fresh_message_count] returns, unchanged, the result with
    which the [get_fresh_msg_cnt] request on (account_id, chat_id)
    resolves. *)
Theorem get_fresh_message_count_returns_result fr v w :
  rpc_call (rpc (self fr)) "get_fresh_msg_cnt"
           [account_id (self fr); chat_id (self fr)] (world fr) = (Returned v, w) →
  (get_fresh_message_count fr).1 = Returned v.
Proof. intros Hcall. run_body. by rewrite Hcall. Qed.

(** C4: [send_text] returns a [Message] that carries the rpc reference
    and the account_id of the [Chat], and the message id the remote
    [misc_send_text_message] call returned. *)
Theorem send_text_returns_message_handle fr (text : value) v w :
  rpc_call (rpc (self fr)) "misc_send_text_message"
           [account_id (self fr); chat_id (self fr); text] (world fr) = (Returned v, w) →
  (send_text text fr).1
    = Returned (mkMessage (rpc (self fr)) (account_id (self fr)) v).
Proof. intros Hcall. run_body. by rewrite Hcall. Qed.

(** C5: no operation writes an attribute of the handle: after any
    sequence of operations on a handle built by [__init__], each of
    them completed by a return or by an exception, [rpc], [account_id]
    and [chat_id] are the constructor's arguments. *)
Theorem operations_leave_handle_unchanged (r : R) (a c : value) fr ops :
  self (perform_all ops (__init__ (E:=E) r a c fr).2) = mkChat r a c.
Proof.
  induction ops as [|op ops IH] using rev_ind.
  - reflexivity.
  - by rewrite perform_all_snoc, perform_self.
Qed.

(** C6: an exception raised by the remote invocation leaves the
    operation unchanged, and the operation stops there: its trace has
    grown by that one invocation and the world is the one the failed
    invocation left. *)
Theorem rpc_errors_propagate_without_retry op fr e w :
  rpc_call (rpc (self fr)) (remote_name op)
           (account_id (self fr) :: chat_id (self fr) :: own_args op) (world fr)
    = (Raised e, w) →
  perform op fr = (Raised e, mkFrame (self fr) w (trace fr ++ [forward_of op fr])).
Proof.
  intros Hcall. rewrite perform_unfold. unfold forward_of at 1; simpl.
  by rewrite Hcall.
Qed.

(** C9: [block], [accept], [delete] and [leave] return None whenever
    their remote invocation returns, whatever value it returns. *)
Theorem void_operations_return_None (f : coro R W E value) (name : string) fr v w :
  In (f, name) void_operations →
  rpc_call (rpc (self fr)) name [account_id (self fr); chat_id (self fr)] (world fr)
    = (Returned v, w) →
  (f fr).1 = Returned VNone.
Proof.
  intros Hin Hcall. unfold void_operations in Hin. simpl in Hin.
  destruct Hin as [Hf|[Hf|[Hf|[Hf|[]]]]]; injection Hf as <- <-;
    run_body; by rewrite Hcall.
Qed.

(** C10: [__init__] stores any three arguments without looking at them
    and without calling the rpc object; every operation then forwards
    the stored identifiers as they are, and raises only what that
    remote invocation raises. *)
Theorem no_local_validation (r : R) (a c : value) fr op :
  __init__ (E:=E) r a c fr
    = (Returned VNone, mkFrame (mkChat r a c) (world fr) (trace fr))
  ∧ trace (perform op (__init__ (E:=E) r a c fr).2).2
    = trace fr ++ [mkInvocation r (remote_name op) (a :: c :: own_args op)]
  ∧ (perform op (__init__ (E:=E) r a c fr).2).1
    = match (rpc_call r (remote_name op) (a :: c :: own_args op) (world fr)).1 with
      | Returned v => Returned (answer op (mkChat r a c) v)
      | Raised e => Raised e
      end.
Proof.
  split; [reflexivity|].
  rewrite perform_unfold. unfold forward_of; simpl.
  by destruct (rpc_call _ _ _ _) as [[v|e] w'].
Qed.

End facts.

(** The scenario of the design document: request 1 is
    [get_fresh_msg_cnt] with params [7, 42], the engine replies with
    result 3, the caller gets 3. *)
Lemma get_fresh_message_count_returns_result_witness :
  rpc.written (rpc.correlator (world (get_fresh_message_count scenario.fresh_count_frame).2))
    = [rpc.mkRequest 1 "get_fresh_msg_cnt" [VInt 7; VInt 42]]
  ∧ (get_fresh_message_count scenario.fresh_count_frame).1 = Returned (VInt 3).
Proof.
  split; [reflexivity|].
  eapply (get_fresh_message_count_returns_result scenario.fresh_count_frame (VInt 3)).
  vm_compute. reflexivity.
Defined.

(** A text sent through the second of two rpc objects: the [Message]
    refers to that same object. *)
Lemma send_text_returns_message_handle_witness :
  rpc_call false "misc_send_text_message" [VInt 7; VInt 42; VStr "hi"]
           (world scenario.second_rpc_frame)
    = (Returned (VInt 1001),
       (rpc_call false "misc_send_text_message" [VInt 7; VInt 42; VStr "hi"]
                 (world scenario.second_rpc_frame)).2)
  ∧ (send_text (VStr "hi") scenario.second_rpc_frame).1
    = Returned (mkMessage false (VInt 7) (VInt 1001)).
Proof.
  split; [reflexivity|].
  apply (send_text_returns_message_handle scenario.second_rpc_frame (VStr "hi") (VInt 1001)
           (rpc_call false "misc_send_text_message" [VInt 7; VInt 42; VStr "hi"]
                     (world scenario.second_rpc_frame)).2).
  reflexivity.
Defined.

(** The scenario of the design document: the engine answers request 2
    with error code -1, "chat not found"; the caller gets that error
    after one invocation. *)
Lemma rpc_errors_propagate_without_retry_witness :
  (perform Get_fresh_message_count scenario.not_found_frame).1
    = Raised (rpc.RemoteError (-1) "chat not found" None)
  ∧ length (trace (perform Get_fresh_message_count scenario.not_found_frame).2) = 1%nat
  ∧ rpc.last_id (rpc.correlator
       (world (perform Get_fresh_message_count scenario.not_found_frame).2)) = 2.
Proof.
  erewrite (rpc_errors_propagate_without_retry (E:=rpc.failure)
              Get_fresh_message_count scenario.not_found_frame)
    by (vm_compute; reflexivity).
  split; [reflexivity|]. split; reflexivity.
Defined.

(** The remote [block_chat] returns 3; [block] returns None. *)
Lemma void_operations_return_None_witness :
  (rpc_call () "block_chat" [VInt 7; VInt 42] (world scenario.fresh_count_frame)).1
    = Returned (VInt 3)
  ∧ (block scenario.fresh_count_frame).1 = Returned VNone.
Proof.
  split; [reflexivity|].
  apply (void_operations_return_None block "block_chat" scenario.fresh_count_frame (VInt 3)
           (rpc_call () "block_chat" [VInt 7; VInt 42]
                     (world scenario.fresh_count_frame)).2).
  - left. reflexivity.
  - reflexivity.
Defined.

End chat_facts.

(** ** Properties of the transport core *)

Module rpc_facts.
Import rpc.

Implicit Types (c : Correlator) (e : event) (evs : list event) (i j : Z)
  (p : payload) (o : resolution).

(** *** Reading the list of resolutions *)

Lemma delivered_same c' c i :
  resolved c' = resolved c → delivered c' i = delivered c i.
Proof. unfold delivered. by intros ->. Qed.

Lemma delivered_snoc c' c j o i :
  resolved c' = resolved c ++ [(j, o)] →
  delivered c' i = delivered c i ++ (if decide (j = i) then [o] else []).
Proof.
  unfold delivered. intros ->.
  rewrite filter_app, fmap_app. f_equal.
  rewrite filter_cons, filter_nil. simpl. by repeat case_decide.
Qed.

Lemma delivered_nil c i : i ∉ (resolved c).*1 → delivered c i = [].
Proof.
  unfold delivered. induction (resolved c) as [|[j o] l IH]; [done|].
  rewrite fmap_cons, not_elem_of_cons. simpl. intros [Hne Hl].
  rewrite filter_cons_False by (simpl; congruence). auto.
Qed.

Lemma lost_once (l : list Z) i :
  NoDup l →
  (filter (λ r : Z * resolution, r.1 = i)
          ((λ id, (id, Raised TransportLost)) <$> l)).*2
    = if decide (i ∈ l) then [Raised TransportLost] else [].
Proof.
  induction 1 as [|j l Hj Hl IH]; [done|].
  rewrite fmap_cons, filter_cons.
  destruct (decide (_.1 = i)) as [Hd|Hd]; simpl in Hd.
  - subst j. rewrite fmap_cons, IH, (decide_False _ _ Hj), decide_True by left.
    done.
  - rewrite IH. destruct (decide (i ∈ l)) as [Hi|Hi].
    + by rewrite decide_True by (by right).
    + rewrite decide_False; [done|]. rewrite not_elem_of_cons. split; congruence.
Qed.

Lemma delivered_drain c i :
  delivered (drainOnClose c) i
    = delivered c i ++ (if decide (i ∈ pending c) then [Raised TransportLost] else []).
Proof.
  unfold delivered, drainOnClose. simpl.
  rewrite filter_app, fmap_app, lost_once by apply NoDup_elements.
  f_equal. destruct (decide (i ∈ pending c)) as [Hi|Hi].
  - by rewrite decide_True by (by apply elem_of_elements).
  - by rewrite decide_False by (by rewrite elem_of_elements).
Qed.

(** *** One step *)

Lemma run_cons e evs c : run (e :: evs) c = run evs (step c e).
Proof. reflexivity. Qed.

Lemma run_app evs1 evs2 c : run (evs1 ++ evs2) c = run evs2 (run evs1 c).
Proof. apply foldl_app. Qed.

Lemma submit_accepted (m : string) (ps : list value) c i :
  (submit m ps c).1 = Returned i →
  i = last_id c + 1
  ∧ (submit m ps c).2
      = mkCorrelator Ready i ({[i]} ∪ pending c) (written c ++ [mkRequest i m ps])
                     (resolved c) (dispatched c) (dropped c).
Proof.
  unfold submit. destruct (state c) eqn:Hst; simpl; try discriminate.
  by intros [= <-].
Qed.

Lemma submit_rejected (m : string) (ps : list value) c (f : failure) :
  (submit m ps c).1 = Raised f → (submit m ps c).2 = c.
Proof. unfold submit. by destruct (state c). Qed.

Lemma step_last_id c e : last_id c ≤ last_id (step c e).
Proof.
  destruct e as [m ps|[j p|m ps]| |reason|]; simpl;
    unfold submit, onIncoming, initialized, degrade, close;
    try case_decide; destruct (state c); simpl; lia.
Qed.

Lemma run_last_id evs c : last_id c ≤ last_id (run evs c).
Proof.
  revert c. induction evs as [|e evs IH]; intros c; [reflexivity|].
  rewrite run_cons. etrans; [apply step_last_id | apply IH].
Qed.

Lemma launched_consistent : consistent launched.
Proof. split; simpl; intros; set_solver. Qed.

Lemma step_consistent c e : consistent c → consistent (step c e).
Proof.
  intros [Hpb Hrb Hpu Hcd].
  destruct e as [m ps|[j p|m ps]| |reason|]; simpl.
  - destruct (submit m ps c).1 as [i|f] eqn:Hs.
    + apply submit_accepted in Hs as [-> ->]. split; simpl.
      * intros i [->%elem_of_singleton|Hi]%elem_of_union; [lia|].
        specialize (Hpb i Hi). lia.
      * intros i Hi. specialize (Hrb i Hi). lia.
      * intros i [->%elem_of_singleton|Hi]%elem_of_union; [|by apply Hpu].
        intros Hi. specialize (Hrb _ Hi). lia.
      * discriminate.
    + apply submit_rejected in Hs as ->. by split.
  - unfold onIncoming. case_decide as Hj; [|by split].
    split; simpl.
    + intros i [Hi _]%elem_of_difference. by apply Hpb.
    + intros i. rewrite fmap_app, elem_of_app. simpl.
      rewrite list_elem_of_singleton. intros [Hi| ->]; auto.
    + intros i [Hi Hne]%elem_of_difference.
      rewrite fmap_app, elem_of_app. simpl.
      rewrite list_elem_of_singleton. intros [Hr| ->]; [by apply (Hpu i)|].
      set_solver.
    + intros Hc. rewrite (Hcd Hc) in Hj. set_solver.
  - by split.
  - unfold initialized.
    destruct (state c) eqn:Hst; split; simpl; auto; intros; congruence.
  - unfold degrade.
    destruct (state c) eqn:Hst; split; simpl; auto; intros; congruence.
  - unfold close, drainOnClose.
    destruct (state c) eqn:Hst; split; simpl; auto;
      try (intros i Hi; by apply not_elem_of_empty in Hi).
    all: intros i; rewrite fmap_app, elem_of_app, <-list_fmap_compose.
    all: intros [Hi|Hi]; [by apply Hrb|].
    all: apply list_elem_of_fmap in Hi as (k & -> & Hk%elem_of_elements).
    all: by apply Hpb.
Qed.

Lemma run_consistent evs c : consistent c → consistent (run evs c).
Proof.
  revert c. induction evs as [|e evs IH]; intros c Hc; [done|].
  rewrite run_cons. by apply IH, step_consistent.
Qed.

(** *** A caller that waits, and a caller that has been served *)

(** While nothing that concerns [i] happens, its caller stays
    suspended with nothing handed to it. *)
Lemma waiting_step c e i :
  i ∈ pending c → delivered c i = [] → touches i e = false →
  i ∈ pending (step c e) ∧ delivered (step c e) i = [].
Proof.
  intros Hp Hd Ht.
  destruct e as [m ps|[j p|m ps]| |reason|]; simpl in *; try discriminate.
  - unfold submit. destruct (state c); simpl; auto.
    split; [|done]. apply elem_of_union. by right.
  - apply bool_decide_eq_false in Ht.
    unfold onIncoming. case_decide as Hj; simpl; [|done]. split.
    + apply elem_of_difference. split; [done|].
      rewrite elem_of_singleton. congruence.
    + rewrite (delivered_snoc _ c j (resolution_of p)) by done.
      by rewrite Hd, decide_False.
  - done.
  - unfold initialized. by destruct (state c).
  - unfold degrade. by destruct (state c).
Qed.

Lemma waiting_run evs c i :
  i ∈ pending c → delivered c i = [] → undisturbed i evs = true →
  i ∈ pending (run evs c) ∧ delivered (run evs c) i = [].
Proof.
  revert c. induction evs as [|e evs IH]; intros c Hp Hd Hq; [done|].
  simpl in Hq. apply andb_true_iff in Hq as [Ht%negb_true_iff Hq].
  rewrite run_cons.
  destruct (waiting_step c e i Hp Hd Ht) as [Hp' Hd']. by apply IH.
Qed.

(** Once [i] has left the pending set, nothing more is handed to its
    caller: later identifiers are larger, and responses that carry [i]
    are dropped. *)
Lemma settled_step c e i :
  i ∉ pending c → i ≤ last_id c →
  (i ∉ pending (step c e)) ∧ delivered (step c e) i = delivered c i.
Proof.
  intros Hp Hle.
  destruct e as [m ps|[j p|m ps]| |reason|]; simpl.
  - unfold submit. destruct (state c); simpl; auto.
    split; [|done]. rewrite elem_of_union, elem_of_singleton.
    intros [->|Hi]; [lia|done].
  - unfold onIncoming. case_decide as Hj; simpl; [|done]. split.
    + rewrite elem_of_difference. by intros [Hi _].
    + rewrite (delivered_snoc _ c j (resolution_of p)) by done.
      rewrite decide_False by congruence. apply app_nil_r.
  - done.
  - unfold initialized. by destruct (state c).
  - unfold degrade. by destruct (state c).
  - unfold close. destruct (state c); [| | |done].
    all: split; [apply not_elem_of_empty|].
    all: rewrite delivered_drain; simpl.
    all: rewrite decide_False by done; apply app_nil_r.
Qed.

Lemma settled_run evs c i :
  i ∉ pending c → i ≤ last_id c →
  (i ∉ pending (run evs c)) ∧ delivered (run evs c) i = delivered c i.
Proof.
  revert c. induction evs as [|e evs IH]; intros c Hp Hle; [done|].
  rewrite run_cons.
  destruct (settled_step c e i Hp Hle) as [Hp' Hd'].
  destruct (IH (step c e) Hp') as [Hp'' Hd''].
  - etrans; [done | apply step_last_id].
  - split; [done | congruence].
Qed.

(** C1: whatever else happens on the connection between a call's
    submission and the arrival of the Response that carries its
    identifier (other callers submitting, other responses in any order,
    notifications, responses with unknown ids), and whatever happens
    afterwards, exactly the resolution of that Response is handed to the
    caller, and nothing else. *)
Theorem each_call_gets_its_own_response
    evs0 (method : string) (params : list value) i evs1 p evs2 :
  (submit method params (run evs0 launched)).1 = Returned i →
  undisturbed i evs1 = true →
  delivered (run (evs1 ++ Incoming (Response i p) :: evs2)
                 (submit method params (run evs0 launched)).2) i
    = [resolution_of p].
Proof.
  intros Hs Hq.
  pose proof (run_consistent evs0 launched launched_consistent) as Hc0.
  apply submit_accepted in Hs as [Hi Hs]. rewrite Hs. clear Hs.
  set (c1 := mkCorrelator _ _ _ _ _ _ _).
  assert (i ∈ pending c1) as Hp by (apply elem_of_union; left; by apply elem_of_singleton).
  assert (delivered c1 i = []) as Hd.
  { apply delivered_nil. simpl. intros Hr.
    apply (resolved_bounded _ Hc0) in Hr. lia. }
  destruct (waiting_run evs1 c1 i Hp Hd Hq) as [Hp1 Hd1].
  rewrite run_app, run_cons. cbn [step].
  set (c2 := run evs1 c1) in *.
  assert (last_id c1 ≤ last_id c2) as Hle by apply run_last_id.
  assert ((i ∉ pending (onIncoming (Response i p) c2))
          ∧ delivered (onIncoming (Response i p) c2) i = [resolution_of p]
          ∧ i ≤ last_id (onIncoming (Response i p) c2)) as (Hp2 & Hd2 & Hle2).
  { unfold onIncoming. rewrite decide_True by done. simpl. split; [|split].
    - rewrite elem_of_difference, elem_of_singleton. by intros [_ []].
    - rewrite (delivered_snoc _ c2 i (resolution_of p)) by done.
      by rewrite Hd1, decide_True.
    - done. }
  destruct (settled_run evs2 _ i Hp2 Hle2) as [_ ->]. done.
Qed.

(** C7: of any two calls accepted during one connection's lifetime, the
    later one gets a strictly larger identifier, however many events lie
    before and between them. *)
Theorem identifiers_never_reused
    evs1 (m1 : string) (ps1 : list value) i1 evs2 (m2 : string) (ps2 : list value) i2 :
  (submit m1 ps1 (run evs1 launched)).1 = Returned i1 →
  (submit m2 ps2 (run evs2 (submit m1 ps1 (run evs1 launched)).2)).1 = Returned i2 →
  i1 < i2.
Proof.
  intros H1 H2.
  apply submit_accepted in H1 as [_ H1]. rewrite H1 in H2.
  apply submit_accepted in H2 as [-> _].
  set (c1 := mkCorrelator _ _ _ _ _ _ _).
  pose proof (run_last_id evs2 c1) as Hle. simpl in Hle. lia.
Qed.

(** C8: when the connection closes, after any history, the pending set
    is empty, and every call that was outstanding at that moment has
    been handed TransportLost and nothing else, now and after whatever
    follows. *)
Theorem close_resolves_every_pending_call evs i evs' :
  i ∈ pending (run evs launched) →
  state (close (run evs launched)) = Closed
  ∧ pending (close (run evs launched)) = ∅
  ∧ delivered (close (run evs launched)) i = [Raised TransportLost]
  ∧ delivered (run evs' (close (run evs launched))) i = [Raised TransportLost].
Proof.
  intros Hp.
  pose proof (run_consistent evs launched launched_consistent) as Hc.
  set (c := run evs launched) in *.
  assert (state c ≠ Closed) as Hst.
  { intros Hcl. rewrite (closed_drained _ Hc Hcl) in Hp.
    by apply not_elem_of_empty in Hp. }
  assert (close c = drainOnClose
            (mkCorrelator Closed (last_id c) (pending c) (written c)
                          (resolved c) (dispatched c) (dropped c))) as Hclose.
  { unfold close. by destruct (state c). }
  assert (delivered (close c) i = [Raised TransportLost]) as Hd.
  { rewrite Hclose, delivered_drain. simpl. rewrite decide_True by done.
    rewrite (delivered_same _ c) by done.
    rewrite delivered_nil; [done|]. by apply (pending_unresolved _ Hc). }
  split; [by rewrite Hclose|]. split; [by rewrite Hclose|]. split; [done|].
  destruct (settled_run evs' (close c) i) as [_ ->]; [| |done].
  - rewrite Hclose. apply not_elem_of_empty.
  - rewrite Hclose. simpl. by apply (pending_bounded _ Hc).
Qed.

(** The scenario of the design document: calls 3 and 4 are outstanding,
    the responses arrive as id 4 and then id 3; each caller gets its
    own. *)
Lemma each_call_gets_its_own_response_witness :
  let c3 := (submit "accept_chat" [VInt 7; VInt 42] (run scenario.two_done launched)).2 in
  let c4 := (submit "get_chat_encryption_info" [VInt 7; VInt 42] c3).2 in
  let final := run [Incoming (Response 4 (Result (VStr "four")));
                    Incoming (Response 3 (Result (VStr "three")))] c4 in
  delivered final 3 = [Returned (VStr "three")]
  ∧ delivered final 4 = [Returned (VStr "four")].
Proof.
  split.
  - apply (each_call_gets_its_own_response scenario.two_done
             "accept_chat" [VInt 7; VInt 42] 3
             [Submits "get_chat_encryption_info" [VInt 7; VInt 42];
              Incoming (Response 4 (Result (VStr "four")))]
             (Result (VStr "three")) []); reflexivity.
  - apply (each_call_gets_its_own_response
             (scenario.two_done ++ [Submits "accept_chat" [VInt 7; VInt 42]])
             "get_chat_encryption_info" [VInt 7; VInt 42] 4
             [] (Result (VStr "four"))
             [Incoming (Response 3 (Result (VStr "three")))]); reflexivity.
Defined.

(** The third and the fifth call of a connection. *)
Lemma identifiers_never_reused_witness :
  (submit "accept_chat" [VInt 7; VInt 42] (run scenario.two_done launched)).1 = Returned 3
  ∧ 3 < 5.
Proof.
  split; [reflexivity|].
  apply (identifiers_never_reused scenario.two_done
           "accept_chat" [VInt 7; VInt 42] 3
           [Incoming (Notification "event" [VInt 7]);
            Submits "leave_group" [VInt 7; VInt 42];
            Incoming (Response 3 (Result VNone))]
           "delete_chat" [VInt 7; VInt 42] 5); reflexivity.
Defined.

(** The scenario of the design document: the engine exits while id 5 is
    outstanding; its caller gets TransportLost, and a reply that still
    carries id 5 afterwards changes nothing. *)
Lemma close_resolves_every_pending_call_witness :
  5 ∈ pending (run scenario.five_outstanding launched)
  ∧ pending (close (run scenario.five_outstanding launched)) = ∅
  ∧ delivered (run [Incoming (Response 5 (Result VNone))]
                   (close (run scenario.five_outstanding launched))) 5
    = [Raised TransportLost].
Proof.
  assert (5 ∈ pending (run scenario.five_outstanding launched)) as Hp
    by (vm_compute; reflexivity).
  split; [exact Hp|].
  destruct (close_resolves_every_pending_call scenario.five_outstanding 5
              [Incoming (Response 5 (Result VNone))] Hp) as (_ & Hempty & _ & Hd).
  split; [exact Hempty | exact Hd].
Defined.

(** After the connection has closed, a new call fails with NotReady. *)
Example call_after_close_is_rejected :
  (submit "get_fresh_msg_cnt" [VInt 7; VInt 42]
          (close (run scenario.five_outstanding launched))).1 = Raised NotReady.
Proof. reflexivity. Qed.

End rpc_facts.

(** ** How the operations of one handle compose *)

Module chat_composition.
Import chat.

Section composition.
Context {R W E : Type} `{!RpcLayer R W E}.
Implicit Types (fr : frame R W) (op : operation) (ops : list operation)
  (v : value) (w : W).


Lemma perform_all_self ops fr : self (perform_all ops fr) = self fr.
Proof.
  induction ops as [|op ops IH] using rev_ind; [done|].
  by rewrite chat_facts.perform_all_snoc, chat_facts.perform_self.
Qed.

(** A caller that runs any list of operations on one handle, going on
    after an operation that raised, has started exactly the list of
    their forwards, in order and all with the handle's identifiers, and
    has left the world that these remote invocations leave one after
    the other; the handle adds no effect of its own. *)
Theorem perform_all_is_the_sequence_of_forwards ops fr :
  perform_all ops fr
    = mkFrame (self fr)
              (foldl (λ w op, (rpc_call (rpc (self fr)) (remote_name op)
                                        (account_id (self fr) :: chat_id (self fr)
                                           :: own_args op) w).2)
                     (world fr) ops)
              (trace fr ++ ((λ op, forward_of op fr) <$> ops)).
Proof.
  induction ops as [|op ops IH] using rev_ind.
  - destruct fr as [s w t]. simpl. by rewrite app_nil_r.
  - rewrite chat_facts.perform_all_snoc, chat_facts.perform_unfold, IH.
    rewrite foldl_app, fmap_app, app_assoc. unfold forward_of; simpl.
    by destruct (rpc_call _ _ _ _) as [[v|e] w'].
Qed.


(** Every [Message] a handle produces, after any earlier operations on
    it, whether they returned or raised, carries the rpc reference and
    the account_id the handle was given. *)
Theorem messages_belong_to_the_handle ops (text : value) fr (m : Message R) :
  (send_text text (perform_all ops fr)).1 = Returned m →
  msg_rpc m = rpc (self fr) ∧ msg_account_id m = account_id (self fr).
Proof.
  pose proof (perform_all_self ops fr) as Hself.
  destruct (perform_all ops fr) as [s w t]. simpl in Hself. subst s.
  cbv beta iota zeta delta [send_text await_rpc getattr mbind mret coro_bind coro_ret].
  simpl. destruct (rpc_call _ _ _ _) as [[v|e] w']; simpl; [|discriminate].
  by intros [= <-].
Qed.


End composition.


(** A text sent after [block] on the second of two rpc objects. *)
Lemma messages_belong_to_the_handle_witness :
  (send_text (VStr "hi") (perform_all [Block] scenario.two_replies_frame)).1
    = Returned (mkMessage false (VInt 7) (VInt 1002))
  ∧ msg_rpc (mkMessage false (VInt 7) (VInt 1002)) = false
  ∧ msg_account_id (mkMessage false (VInt 7) (VInt 1002)) = VInt 7.
Proof.
  split; [reflexivity|].
  apply (messages_belong_to_the_handle (E:=rpc.failure) [Block] (VStr "hi")
           scenario.two_replies_frame (mkMessage false (VInt 7) (VInt 1002))).
  reflexivity.
Defined.

End chat_composition.
